(** * HudiJniReader: the scan-time adapter over the JNI scanner bridge

    A shallow embedding of [be/src/vec/exec/scan/hudi_jni_reader.cpp].

    - [std::string] is [string] (a sequence of 8-bit characters);
    - [std::map<String, String>] and the thrift [map<string,string>] are
      [gmap string string]; [std::unordered_map] / [std::unordered_set] are
      [gmap] / [gset];
    - [std::vector] is [list];
    - raw pointers that the adapter only stores and forwards are addresses
      in [N];
    - the calls made through [_jni_connector] are the constructors of
      [JniCall]; a method of the adapter is a finite call tree [Jni A] over
      them, run against an arbitrary implementation of the bridge. *)

From Stdlib Require Import Ascii.
From stdpp Require Import gmap strings list fin_maps pretty sorting.

Local Open Scope string_scope.

(** ** Strings *)

(** Modelled from the spec: the helper [join] (declared outside this file),
    "serialized as delimiter-joined strings": the elements in order, the
    delimiter between each two neighbours, nothing for the empty vector. *)
Fixpoint join (elems : list string) (delim : string) : string :=
  match elems with
  | [] => EmptyString
  | x :: xs =>
      match xs with
      | [] => x
      | _ :: _ => x +:+ delim +:+ join xs delim
      end
  end.

(** Modelled from the spec: "split by its delimiter", the reading side of
    [join] (it lives in the hosted reader).  A string with [n] occurrences
    of the delimiter has [n + 1] fields; the empty string has the single
    empty field. *)
Fixpoint split (delim : ascii) (s : string) : list string :=
  match s with
  | EmptyString => [EmptyString]
  | String c s' =>
      if decide (c = delim) then EmptyString :: split delim s'
      else match split delim s' with
           | [] => [String c EmptyString]
           | field :: fields => String c field :: fields
           end
  end.

(** The character occurs in the string. *)
Fixpoint occurs (c : ascii) (s : string) : bool :=
  match s with
  | EmptyString => false
  | String c' s' => if decide (c' = c) then true else occurs c s'
  end.

(** [std::to_string] on a signed 64-bit integer: decimal digits, a leading
    minus sign for negative values. *)
Definition to_string (v : Z) : string := pretty v.

(** ** Thrift structures and descriptors (the fields this file reads) *)

Record THudiFileDesc := {
  instant_time : string;
  serde : string;
  input_format : string;
  base_path : string;
  data_file_path : string;
  data_file_length : Z;
  delta_logs : list string;
  column_names : list string;
  column_types : list string
}.

Record TFileScanRangeParams := {
  properties : gmap string string
}.

Record SlotDescriptor (TypeDescriptor : Type) := {
  col_name : string;
  type : TypeDescriptor
}.
Arguments col_name {_} _.
Arguments type {_} _.

(** ** The constructor: parameter assembly *)

Definition HADOOP_FS_PREFIX : string := "hadoop_fs.".

(** Lines 49-52: one entry per slot descriptor, in the vector's order. *)
Definition required_fields {T} (file_slot_descs : list (SlotDescriptor T))
  : list string :=
  foldl (λ acc desc, (acc ++ [col_name desc])%list) [] file_slot_descs.

(** Lines 54-64: the initializer list of [params].  [std::map]'s
    initializer-list constructor inserts the pairs in order and keeps the
    first of two equal keys, which is [list_to_map]. *)
Definition params_initializer {T} (hudi_params : THudiFileDesc)
    (file_slot_descs : list (SlotDescriptor T)) : list (string * string) :=
  [ ("base_path", base_path hudi_params);
    ("data_file_path", data_file_path hudi_params);
    ("data_file_length", to_string (data_file_length hudi_params));
    ("delta_file_paths", join (delta_logs hudi_params) ",");
    ("hudi_column_names", join (column_names hudi_params) ",");
    ("hudi_column_types", join (column_types hudi_params) "#");
    ("required_fields", join (required_fields file_slot_descs) ",");
    ("instant_time", instant_time hudi_params);
    ("serde", serde hudi_params);
    ("input_format", input_format hudi_params) ].

(** Lines 66-69: [params[HADOOP_FS_PREFIX + kv.first] = kv.second] for
    every entry of the property map ([operator[]] then assignment
    overwrites).  The loop visits the entries in key order; the map it
    leaves does not depend on the order ([params_assembled] below fixes
    every lookup), so the fold of the map is used.  Lines 71-100 then hand
    the entries of [params] one by one to the constructor of the hosted
    reader. *)
Definition params {T} (scan_params : TFileScanRangeParams)
    (hudi_params : THudiFileDesc) (file_slot_descs : list (SlotDescriptor T))
  : gmap string string :=
  map_fold (λ k v acc, <[HADOOP_FS_PREFIX +:+ k := v]> acc)
    (list_to_map (params_initializer hudi_params file_slot_descs))
    (properties scan_params).

(** The keys of the initializer list, in the order of lines 55-64. *)
Definition reserved_keys : list string :=
  [ "base_path"; "data_file_path"; "data_file_length"; "delta_file_paths";
    "hudi_column_names"; "hudi_column_types"; "required_fields";
    "instant_time"; "serde"; "input_format" ].

(** What the loop of lines 67-69 has established, for the map [init] of
    the initializer list, once it has gone through the properties [m] and
    left the map [r]. *)
Definition assembled (init r m : gmap string string) : Prop :=
  (∀ k, r !! (HADOOP_FS_PREFIX +:+ k) = m !! k)
  ∧ (∀ key, (∀ k, key ≠ HADOOP_FS_PREFIX +:+ k) → r !! key = init !! key)
  ∧ dom r = dom init ∪ set_map (String.app HADOOP_FS_PREFIX) (dom m)
  ∧ size r = size init + size m.

(** ** Status *)

(** Modelled from the spec: the [Status] type (declared outside this file)
    with the error taxonomy of the bridge: bridge-initialization error,
    remote I/O error, invalid-state error, cleanup error. *)
Inductive ErrorKind :=
| BridgeInitializationError
| RemoteIOError
| InvalidStateError
| CleanupError.

Inductive Status :=
| OK
| Error (kind : ErrorKind) (msg : string).

Definition ok (s : Status) : bool :=
  match s with OK => true | Error _ _ => false end.

(** ** The bridge interface and the adapter's methods *)

Section Adapter.
Context {TypeDescriptor Block : Type}.

(** The caller's memory behind the three out-parameters of
    [get_next_block]: [Block* block], [size_t* read_rows], [bool* eof]. *)
Record Out := {
  block : Block;
  read_rows : N;
  eof : bool
}.

(** The member functions of [_jni_connector] this file calls, each with
    the type of what it hands back. [get_nex_block] writes through the
    three pointers, so it hands back the new contents with its status. *)
Inductive JniCall : Type → Type :=
| jni_init (colname_to_value_range : N) : JniCall Status
| jni_open (state profile : N) : JniCall Status
| jni_get_nex_block (o : Out) : JniCall (Status * Out)
| jni_close : JniCall Status.

(** A computation that calls the bridge finitely often and returns. *)
Inductive Jni (A : Type) : Type :=
| Ret (a : A)
| Call {X : Type} (c : JniCall X) (k : X → Jni A).
Arguments Ret {A} a.
Arguments Call {A X} c k.

Fixpoint bind {A B} (m : Jni A) (f : A → Jni B) : Jni B :=
  match m with
  | Ret a => f a
  | Call c k => Call c (λ x, bind (k x) f)
  end.

#[global] Instance Jni_ret : MRet Jni := @Ret.
#[global] Instance Jni_bind : MBind Jni := λ A B f m, bind m f.

Definition call {X} (c : JniCall X) : Jni X := Call c Ret.

(** Modelled from the spec: the macro [RETURN_IF_ERROR] (declared outside
    this file), "returns the first failure encountered": evaluate the
    statement; when its status is not OK the enclosing function returns
    that status at once, otherwise execution goes on.  [early] builds the
    function's result from the failing status. *)
Definition RETURN_IF_ERROR {A} (stmt : Jni Status) (early : Status → A)
    (rest : Jni A) : Jni A :=
  _s ← stmt; if ok _s then rest else mret (early _s).

Record HudiJniReader := {
  _scan_params : TFileScanRangeParams;
  _hudi_params : THudiFileDesc;
  _file_slot_descs : list (SlotDescriptor TypeDescriptor);
  _state : N;
  _profile : N;
  _colname_to_value_range : N
}.

Definition set_colname_to_value_range (p : N) (this : HudiJniReader)
  : HudiJniReader :=
  {| _scan_params := _scan_params this;
     _hudi_params := _hudi_params this;
     _file_slot_descs := _file_slot_descs this;
     _state := _state this;
     _profile := _profile this;
     _colname_to_value_range := p |}.

(** Lines 103-109. The result is the returned status with the contents
    of the out-parameters at return. *)
Definition get_next_block (this : HudiJniReader) (o : Out)
  : Jni (Status * Out) :=
  '(s, o) ← call (jni_get_nex_block o);
  RETURN_IF_ERROR (mret s) (λ e, (e, o))
    (if eof o
     then RETURN_IF_ERROR (call jni_close) (λ e, (e, o)) (mret (OK, o))
     else mret (OK, o)).

(** [std::unordered_map::emplace]: no effect when the key is present. *)
Definition emplace {V} (k : string) (v : V) (m : gmap string V)
  : gmap string V :=
  match m !! k with
  | Some _ => m
  | None => <[k := v]> m
  end.

(** Lines 111-117. [missing_cols] is never written. *)
Definition get_columns (this : HudiJniReader)
    (name_to_type : gmap string TypeDescriptor) (missing_cols : gset string)
  : Jni (Status * gmap string TypeDescriptor * gset string) :=
  let name_to_type :=
    foldl (λ acc desc, emplace (col_name desc) (type desc) acc)
      name_to_type (_file_slot_descs this) in
  mret (OK, name_to_type, missing_cols).

(** Lines 119-124. The result is the returned status with the adapter
    after the call. *)
Definition init_reader (this : HudiJniReader) (colname_to_value_range : N)
  : Jni (Status * HudiJniReader) :=
  let this := set_colname_to_value_range colname_to_value_range this in
  RETURN_IF_ERROR (call (jni_init colname_to_value_range)) (λ e, (e, this))
    (s ← call (jni_open (_state this) (_profile this));
     mret (s, this)).

(** *** Running a method against a bridge *)

(** A bridge implementation over its own state [J]. *)
Definition Handler (J : Type) : Type := ∀ X, JniCall X → J → X * J.

(** What was invoked on the bridge, with its arguments. *)
Inductive Invoked :=
| invoked_init (colname_to_value_range : N)
| invoked_open (state profile : N)
| invoked_get_nex_block (o : Out)
| invoked_close.

Definition invoked {X} (c : JniCall X) : Invoked :=
  match c with
  | jni_init p => invoked_init p
  | jni_open st pr => invoked_open st pr
  | jni_get_nex_block o => invoked_get_nex_block o
  | jni_close => invoked_close
  end.

(** The result, the bridge afterwards, and the bridge calls in order. *)
Fixpoint run {J A} (h : Handler J) (m : Jni A) (j : J)
  : A * J * list Invoked :=
  match m with
  | Ret a => (a, j, [])
  | Call c k =>
      let '(x, j) := h _ c j in
      let '(a, j, calls) := run h (k x) j in
      (a, j, invoked c :: calls)
  end.

End Adapter.
Arguments Out : clear implicits.
Arguments JniCall : clear implicits.
Arguments Jni : clear implicits.
Arguments Invoked : clear implicits.
Arguments Handler : clear implicits.
Arguments HudiJniReader : clear implicits.

(** ** A sequence of calls on one adapter *)

Section Execution.
Context {TypeDescriptor Block J : Type}.

(** One call of the scan pipeline on the adapter. *)
Inductive AdapterCall :=
| call_init_reader (colname_to_value_range : N)
| call_get_next_block (o : Out Block)
| call_get_columns (name_to_type : gmap string TypeDescriptor)
    (missing_cols : gset string).

(** The adapter and its bridge after one call. *)
Definition after (h : Handler Block J)
    (w : HudiJniReader TypeDescriptor * J) (c : AdapterCall)
  : HudiJniReader TypeDescriptor * J :=
  let '(this, j) := w in
  match c with
  | call_init_reader p =>
      let '(_, this, j, _) := run h (init_reader this p) j in (this, j)
  | call_get_next_block o =>
      let '(_, j, _) := run h (get_next_block this o) j in (this, j)
  | call_get_columns n m =>
      let '(_, j, _) := run h (get_columns this n m) j in (this, j)
  end.

Definition after_all (h : Handler Block J)
    (w : HudiJniReader TypeDescriptor * J) (cs : list AdapterCall)
  : HudiJniReader TypeDescriptor * J :=
  foldl (after h) w cs.
End Execution.
Arguments AdapterCall : clear implicits.

(** ** The bridge handle *)

(** Modelled from the spec: the Bridge Handle, the class behind
    [_jni_connector] (declared outside this file).  Its life cycle runs
    from constructed by init to initialized, by open to opened, by
    nextBlock to draining, and after end-of-stream to closed; "any
    operation attempted out of order fails with an invalid bridge state
    error"; [nextBlock] "must never be called after isEndOfStream was
    previously true, nor after close"; "calling close more than once must
    be a no-op, not an error"; "close is reachable from every non-closed
    state".  The handle therefore remembers, next to its life-cycle state,
    whether a read has returned end-of-stream.  The hosted reader behind
    the handle is arbitrary ([Remote]).  Where the spec is silent (a remote
    operation that fails) the handle stays in the state it was in. *)
Inductive BridgeState :=
| constructed
| initialized
| opened
| draining
| closed.

Section Bridge.
Context {Block R : Type}.

(** The hosted reader: "exposes init(predicateRanges), open(),
    nextBlock(block) -> (rows, eos), close()". *)
Record Remote := {
  remote_init : N → R → Status * R;
  remote_open : N → N → R → Status * R;
  remote_nextBlock : Out Block → R → Status * Out Block * R;
  remote_close : R → Status * R
}.

Record BridgeHandle := {
  lifecycle : BridgeState;
  eos_returned : bool;
  reader : R
}.

Definition invalid_state : Status :=
  Error InvalidStateError "invalid bridge state".

Definition bridge_init (rd : Remote) (p : N) (b : BridgeHandle)
  : Status * BridgeHandle :=
  match lifecycle b with
  | constructed =>
      let '(s, r) := remote_init rd p (reader b) in
      (s, {| lifecycle := if ok s then initialized else constructed;
             eos_returned := eos_returned b; reader := r |})
  | _ => (invalid_state, b)
  end.

Definition bridge_open (rd : Remote) (state profile : N) (b : BridgeHandle)
  : Status * BridgeHandle :=
  match lifecycle b with
  | initialized =>
      let '(s, r) := remote_open rd state profile (reader b) in
      (s, {| lifecycle := if ok s then opened else initialized;
             eos_returned := eos_returned b; reader := r |})
  | _ => (invalid_state, b)
  end.

Definition may_read (b : BridgeHandle) : bool :=
  match lifecycle b with
  | opened | draining => negb (eos_returned b)
  | _ => false
  end.

Definition bridge_nextBlock (rd : Remote) (o : Out Block) (b : BridgeHandle)
  : Status * Out Block * BridgeHandle :=
  if may_read b then
    let '(s, o', r) := remote_nextBlock rd o (reader b) in
    (s, o', {| lifecycle := if ok s then draining else lifecycle b;
               eos_returned := if ok s then eof o' else eos_returned b;
               reader := r |})
  else (invalid_state, o, b).

Definition bridge_close (rd : Remote) (b : BridgeHandle)
  : Status * BridgeHandle :=
  match lifecycle b with
  | closed => (OK, b)
  | _ =>
      let '(s, r) := remote_close rd (reader b) in
      (s, {| lifecycle := if ok s then closed else lifecycle b;
             eos_returned := eos_returned b; reader := r |})
  end.

Definition bridge (rd : Remote) : Handler Block BridgeHandle :=
  λ X c,
    match c in JniCall _ X return BridgeHandle → X * BridgeHandle with
    | jni_init p => bridge_init rd p
    | jni_open state profile => bridge_open rd state profile
    | jni_get_nex_block o => bridge_nextBlock rd o
    | jni_close => bridge_close rd
    end.

(** No further batch may be pulled from the handle. *)
Definition drained (b : BridgeHandle) : Prop :=
  eos_returned b = true ∨ lifecycle b = closed.
End Bridge.
Arguments Remote : clear implicits.
Arguments BridgeHandle : clear implicits.

(** A hosted reader for examples: its state is the list of batches still
    to deliver; every operation succeeds; [nextBlock] delivers the next
    batch, and reports end-of-stream once none is left. *)
Definition list_remote : Remote nat (list nat) := {|
  remote_init := λ _ r, (OK, r);
  remote_open := λ _ _ r, (OK, r);
  remote_nextBlock := λ o r,
    match r with
    | [] => (OK, {| block := block o; read_rows := 0; eof := true |}, [])
    | batch :: r => (OK, {| block := batch; read_rows := 1; eof := false |}, r)
    end;
  remote_close := λ r, (OK, r)
|}.

(** A bridge whose [close] fails after a successful final read. *)
Definition failing_close_remote : Remote nat (list nat) := {|
  remote_init := remote_init list_remote;
  remote_open := remote_open list_remote;
  remote_nextBlock := remote_nextBlock list_remote;
  remote_close := λ r, (Error CleanupError "close failed", r)
|}.

(** ** Statements of the specification, and inputs for the examples *)

(** The statement of C6 for one construction: the requested names are
    among the scan range's column names, and the map holds their comma-join
    in the order of the slot descriptors. *)
Definition projection_serialized {T} (hudi : THudiFileDesc)
    (descs : list (SlotDescriptor T)) (m : gmap string string) : Prop :=
  required_fields descs ⊆ column_names hudi
  ∧ m !! "required_fields" = Some (join (map col_name descs) ",").

(** The statement of C4 for one construction: the type string splits into
    as many fields as there are column names, and the fields of the two
    strings, taken pairwise, are the columns with their types. *)
Definition types_aligned (hudi : THudiFileDesc) (m : gmap string string)
  : Prop :=
  ∃ names types,
    m !! "hudi_column_names" = Some names
    ∧ m !! "hudi_column_types" = Some types
    ∧ length (split "#" types) = length (column_names hudi)
    ∧ zip (split "," names) (split "#" types)
      = zip (column_names hudi) (column_types hudi).

(** A slot descriptor for a column the scan range does not list. *)
Definition hudi_one_column : THudiFileDesc := {|
  instant_time := "t0"; serde := "s"; input_format := "f";
  base_path := "/t"; data_file_path := "/t/f.parquet"; data_file_length := 42;
  delta_logs := []; column_names := ["a"]; column_types := ["int"] |}.

(** Three columns, one type with a comma in it; [c] and [a] requested. *)
Definition hudi_abc : THudiFileDesc := {|
  instant_time := "t0"; serde := "s"; input_format := "f";
  base_path := "/t"; data_file_path := "/t/f.parquet"; data_file_length := 42;
  delta_logs := []; column_names := ["a"; "b"; "c"];
  column_types := ["int"; "decimal(10,2)"; "string"] |}.

Definition descs_c_a : list (SlotDescriptor nat) :=
  [ {| col_name := "c"; type := 2%nat |};
    {| col_name := "a"; type := 0%nat |} ].

(** A column type that contains the type delimiter. *)
Definition hudi_hash_in_type : THudiFileDesc := {|
  instant_time := "t0"; serde := "s"; input_format := "f";
  base_path := "/t"; data_file_path := "/t/f.parquet"; data_file_length := 42;
  delta_logs := []; column_names := ["c"]; column_types := ["a#b"] |}.

(** An adapter over [hudi_abc], its out-parameters before the first read,
    and a bridge handle that is open over a reader with nothing left. *)
Definition reader_abc : HudiJniReader nat := {|
  _scan_params := {| properties := ∅ |};
  _hudi_params := hudi_abc;
  _file_slot_descs := descs_c_a;
  _state := 1;
  _profile := 2;
  _colname_to_value_range := 0
|}.

Definition out0 : Out nat := {| block := 0%nat; read_rows := 0; eof := false |}.

Definition opened_empty : BridgeHandle (list nat) :=
  {| lifecycle := opened; eos_returned := false; reader := [] |}.

(** ** The constructor: handing the parameters to the hosted reader *)

(** [std::string::c_str] as [NewStringUTF] reads it: the characters before
    the first NUL. *)
Fixpoint c_str (s : string) : string :=
  match s with
  | EmptyString => EmptyString
  | String c s' =>
      if decide (c = Ascii.zero) then EmptyString else String c (c_str s')
  end.

(** The order of [std::map<String, String>]: keys compared character by
    character as unsigned bytes, a proper prefix first. *)
Definition key_le (x y : string * string) : Prop := String.le x.1 y.1.

#[global] Instance key_le_dec : RelDecision key_le :=
  λ x y, decide (String.le x.1 y.1).

(** What [for (const auto& it : params)] visits, in order. *)
Definition entries_in_key_order (m : gmap string string)
  : list (string * string) :=
  merge_sort key_le (map_to_list m).

(** References into the other runtime ([jobject], [jclass], [jstring]) and
    method ids are opaque handles; a variadic argument is an integer or a
    reference. *)
Inductive jvalue :=
| jv_size (n : N)
| jv_ref (r : N).

(** The functions of [_jni_env] that lines 71-100 call. *)
Inductive EnvCall : Type → Type :=
| FindClass (name : string) : EnvCall N
| GetMethodID (cls : N) (name sig : string) : EnvCall N
| NewObject (cls : N) (ctor : N) (args : list jvalue) : EnvCall N
| CallObjectMethod (obj : N) (method : N) (args : list jvalue) : EnvCall N
| NewStringUTF (bytes : string) : EnvCall N
| DeleteLocalRef (r : N) : EnvCall unit.

(** A computation that calls [_jni_env] finitely often and returns. *)
Inductive JNIEnv (A : Type) : Type :=
| env_ret (a : A)
| env_call {X : Type} (c : EnvCall X) (k : X → JNIEnv A).
Arguments env_ret {A} a.
Arguments env_call {A X} c k.

Fixpoint env_bind {A B} (m : JNIEnv A) (f : A → JNIEnv B) : JNIEnv B :=
  match m with
  | env_ret a => f a
  | env_call c k => env_call c (λ x, env_bind (k x) f)
  end.

#[global] Instance JNIEnv_ret : MRet JNIEnv := @env_ret.
#[global] Instance JNIEnv_bind : MBind JNIEnv := λ A B f m, env_bind m f.

Definition env {X} (c : EnvCall X) : JNIEnv X := env_call c env_ret.

(** Lines 90-95, the body of the loop over [params]. *)
Definition put_entry (hashmap_object hashmap_put : N) (it : string * string)
  : JNIEnv unit :=
  key ← env (NewStringUTF (c_str it.1));
  value ← env (NewStringUTF (c_str it.2));
  _ ← env (CallObjectMethod hashmap_object hashmap_put
             [jv_ref key; jv_ref value]);
  _ ← env (DeleteLocalRef key);
  env (DeleteLocalRef value).

Fixpoint for_each {A} (body : A → JNIEnv unit) (l : list A) : JNIEnv unit :=
  match l with
  | [] => mret tt
  | x :: l => _ ← body x; for_each body l
  end.

(** Lines 71-100. The result is what the constructor keeps:
    [_jni_scanner_cls] and the object assigned to [_jni_connector]. *)
Definition construct_scanner (params : gmap string string) : JNIEnv (N * N) :=
  scanner_loader_class ←
    env (FindClass "org/apache/doris/hudi/HudiScannerLoader");
  scanner_loader_constructor ←
    env (GetMethodID scanner_loader_class "<init>" "()V");
  scanner_loader_obj ←
    env (NewObject scanner_loader_class scanner_loader_constructor []);
  get_loader_method ←
    env (GetMethodID scanner_loader_class "getLoaderClass"
           "()Ljava/lang/Class;");
  _jni_scanner_cls ←
    env (CallObjectMethod scanner_loader_obj get_loader_method []);
  _ ← env (DeleteLocalRef scanner_loader_class);
  _ ← env (DeleteLocalRef scanner_loader_obj);
  scanner_constructor ←
    env (GetMethodID _jni_scanner_cls "<init>" "(ILjava/util/Map;)V");
  hashmap_class ← env (FindClass "java/util/HashMap");
  hashmap_constructor ← env (GetMethodID hashmap_class "<init>" "(I)V");
  hashmap_object ←
    env (NewObject hashmap_class hashmap_constructor
           [jv_size (N.of_nat (size params))]);
  hashmap_put ←
    env (GetMethodID hashmap_class "put"
           "(Ljava/lang/String;Ljava/lang/String;)Ljava/lang/String;");
  _ ← for_each (put_entry hashmap_object hashmap_put)
        (entries_in_key_order params);
  _ ← env (DeleteLocalRef hashmap_class);
  _jni_connector ←
    env (NewObject _jni_scanner_cls scanner_constructor
           [jv_ref hashmap_object]);
  _ ← env (DeleteLocalRef hashmap_object);
  mret (_jni_scanner_cls, _jni_connector).

(** Lines 40-101: the constructor, from its arguments to the calls on
    [_jni_env]. *)
Definition new_HudiJniReader {T} (scan_params : TFileScanRangeParams)
    (hudi_params : THudiFileDesc) (file_slot_descs : list (SlotDescriptor T))
  : JNIEnv (N * N) :=
  construct_scanner (params scan_params hudi_params file_slot_descs).

(** One call on [_jni_env] with what it returned. *)
Inductive EnvEvent :=
| env_event {X : Type} (c : EnvCall X) (x : X).

(** The other runtime over its own state [V]. *)
Definition EnvHandler (V : Type) : Type := ∀ X, EnvCall X → V → X * V.

Fixpoint run_env {V A} (h : EnvHandler V) (m : JNIEnv A) (v : V)
  : A * V * list EnvEvent :=
  match m with
  | env_ret a => (a, v, [])
  | env_call c k =>
      let '(x, v) := h _ c v in
      let '(a, v, events) := run_env h (k x) v in
      (a, v, env_event c x :: events)
  end.

(** Readings of one event. *)
Definition string_created (e : EnvEvent) : option (string * N) :=
  match e with
  | env_event c x =>
      match c in EnvCall X return X → option (string * N) with
      | NewStringUTF bytes => λ r, Some (bytes, r)
      | _ => λ _, None
      end x
  end.

Definition ref_deleted (e : EnvEvent) : option N :=
  match e with
  | env_event c _ =>
      match c with
      | DeleteLocalRef r => Some r
      | _ => None
      end
  end.

Definition class_found (e : EnvEvent) : option (string * N) :=
  match e with
  | env_event c x =>
      match c in EnvCall X return X → option (string * N) with
      | FindClass name => λ r, Some (name, r)
      | _ => λ _, None
      end x
  end.

Definition object_created (e : EnvEvent) : option (N * list jvalue * N) :=
  match e with
  | env_event c x =>
      match c in EnvCall X return X → option (N * list jvalue * N) with
      | NewObject cls _ args => λ r, Some (cls, args, r)
      | _ => λ _, None
      end x
  end.

Definition method_called (e : EnvEvent)
  : option (N * N * list jvalue * N) :=
  match e with
  | env_event c x =>
      match c in EnvCall X return X → option (N * N * list jvalue * N) with
      | CallObjectMethod obj method args => λ r, Some (obj, method, args, r)
      | _ => λ _, None
      end x
  end.



(** Consecutive elements taken two by two. *)
Fixpoint pairs {A} (l : list A) : list (A * A) :=
  match l with
  | x :: y :: l => (x, y) :: pairs l
  | _ => []
  end.

(** A runtime for examples: it hands out fresh handles 1, 2, 3, ... *)
Definition counting_env : EnvHandler N :=
  λ X c,
    match c in EnvCall X return N → X * N with
    | DeleteLocalRef _ => λ v, (tt, v)
    | _ => λ v, ((v + 1)%N, (v + 1)%N)
    end.

(** Inputs for the examples: slot descriptors in which the name [c]
    occurs twice, an adapter over them, and one storage property. *)
Definition descs_a_c_c : list (SlotDescriptor nat) :=
  [ {| col_name := "a"; type := 0%nat |};
    {| col_name := "c"; type := 2%nat |};
    {| col_name := "c"; type := 5%nat |} ].

Definition reader_a_c_c : HudiJniReader nat := {|
  _scan_params := {| properties := ∅ |};
  _hudi_params := hudi_abc;
  _file_slot_descs := descs_a_c_c;
  _state := 1;
  _profile := 2;
  _colname_to_value_range := 0
|}.

Definition scan_s3 : TFileScanRangeParams :=
  {| properties := {[ "fs.s3a.endpoint" := "http://s3:9000" ]} |}.

(** ** Proof automation *)

Ltac unfold_method :=
  unfold get_next_block, init_reader, get_columns, RETURN_IF_ERROR, call,
    mbind, Jni_bind, mret, Jni_ret;
  cbn [bind run invoked].

Ltac unfold_env :=
  unfold env, mbind, JNIEnv_bind, mret, JNIEnv_ret;
  cbn [env_bind run_env].

(** One call on the other runtime: name its result and the state after. *)
Ltac step_env :=
  match goal with
  | |- context [?h ?X ?c ?v] =>
      match type of h with
      | EnvHandler _ => destruct (h X c v) as [? ?]
      end
  end.

(** * Properties *)

(** ** Parameter assembly *)

Lemma required_fields_map {T} (descs : list (SlotDescriptor T)) :
  required_fields descs = map col_name descs.
Proof.
  unfold required_fields.
  enough (H : ∀ acc,
            foldl (λ acc desc, (acc ++ [col_name desc])%list) acc descs
            = (acc ++ map col_name descs)%list) by apply (H []).
  induction descs as [|d descs IH]; intros acc; simpl.
  - by rewrite app_nil_r.
  - rewrite IH. by rewrite <- app_assoc.
Qed.

Lemma initializer_keys {T} hudi (descs : list (SlotDescriptor T)) :
  (params_initializer hudi descs).*1 = reserved_keys.
Proof. reflexivity. Qed.

Lemma reserved_keys_NoDup : NoDup reserved_keys.
Proof. compute_done. Qed.

Lemma reserved_not_prefixed r k :
  r ∈ reserved_keys → r ≠ HADOOP_FS_PREFIX +:+ k.
Proof.
  unfold reserved_keys. rewrite !elem_of_cons, elem_of_nil.
  intros H E. subst r. cbn in H.
  repeat (destruct H as [H|H]; [discriminate H|]). exact H.
Qed.

Lemma prefix_inj k1 k2 :
  HADOOP_FS_PREFIX +:+ k1 = HADOOP_FS_PREFIX +:+ k2 → k1 = k2.
Proof. apply (String.app_inj HADOOP_FS_PREFIX). Qed.

Section Assembly.
Context {T : Type}.
Variables (scan_params : TFileScanRangeParams) (hudi_params : THudiFileDesc)
  (file_slot_descs : list (SlotDescriptor T)).

Let init : gmap string string :=
  list_to_map (params_initializer hudi_params file_slot_descs).

Lemma init_dom : dom init = list_to_set reserved_keys.
Proof.
  unfold init. rewrite dom_list_to_map_L. by rewrite initializer_keys.
Qed.

Lemma init_size : size init = 10.
Proof.
  unfold init. rewrite map_size_list_to_map; [reflexivity|].
  rewrite initializer_keys. apply reserved_keys_NoDup.
Qed.

Lemma init_prefixed_None k : init !! (HADOOP_FS_PREFIX +:+ k) = None.
Proof.
  apply not_elem_of_dom. rewrite init_dom, elem_of_list_to_set.
  intros H. by apply (reserved_not_prefixed _ k) in H.
Qed.

Lemma params_assembled :
  assembled init (params scan_params hudi_params file_slot_descs)
    (properties scan_params).
Proof.
  unfold params. fold init.
  apply (map_fold_weak_ind (assembled init)).
  - split_and!.
    + intros k. rewrite lookup_empty. apply init_prefixed_None.
    + done.
    + rewrite dom_empty_L, set_map_empty. set_solver.
    + rewrite map_size_empty. lia.
  - intros i x m r Hi (Hpre & Hoth & Hdom & Hsz). split_and!.
    + intros k. destruct (decide (k = i)) as [->|Hne].
      * by rewrite !lookup_insert_eq.
      * rewrite !lookup_insert_ne; [apply Hpre|congruence|].
        intros E. apply prefix_inj in E. congruence.
    + intros key Hkey. rewrite lookup_insert_ne; [by apply Hoth|].
      intros E. by apply (Hkey i).
    + rewrite !dom_insert_L, Hdom, set_map_union_L, set_map_singleton_L.
      generalize (dom init).
      generalize (set_map (D:=gset string) (String.app HADOOP_FS_PREFIX)
                    (dom m) : gset string).
      intros prefixed reserved.
      rewrite (assoc_L (∪)), (comm_L (∪) _ reserved).
      by rewrite <- (assoc_L (∪)).
    + rewrite !map_size_insert_None; [lia|done|]. by rewrite Hpre.
Qed.
End Assembly.

Lemma params_reserved {T} scan hudi (descs : list (SlotDescriptor T)) key :
  (∀ k, key ≠ HADOOP_FS_PREFIX +:+ k) →
  params scan hudi descs !! key
  = (list_to_map (params_initializer hudi descs) : gmap string string) !! key.
Proof.
  intros Hkey. destruct (params_assembled scan hudi descs) as (_ & Hoth & _).
  by apply Hoth.
Qed.

Lemma params_prefixed {T} scan hudi (descs : list (SlotDescriptor T)) k :
  params scan hudi descs !! (HADOOP_FS_PREFIX +:+ k) = properties scan !! k.
Proof.
  destruct (params_assembled scan hudi descs) as (Hpre & _). apply Hpre.
Qed.

(** C3. For base path "/t", delta logs "/t/.log1" and "/t/.log2", columns
    "id" and "name" of types "int" and "string", and the single requested
    field "id" (whatever the other fields and the storage properties are),
    the assembled map holds "/t/.log1,/t/.log2" under "delta_file_paths",
    "id" under "required_fields", "int#string" under "hudi_column_types"
    and "id,name" under "hudi_column_names". *)
Theorem params_scenario {T} (scan : TFileScanRangeParams)
    (path instant srd fmt : string) (len : Z) (ty : T) :
  let hudi := {| instant_time := instant; serde := srd; input_format := fmt;
                 base_path := "/t"; data_file_path := path;
                 data_file_length := len;
                 delta_logs := ["/t/.log1"; "/t/.log2"];
                 column_names := ["id"; "name"];
                 column_types := ["int"; "string"] |} in
  let m := params scan hudi [ {| col_name := "id"; type := ty |} ] in
  m !! "delta_file_paths" = Some "/t/.log1,/t/.log2"
  ∧ m !! "required_fields" = Some "id"
  ∧ m !! "hudi_column_types" = Some "int#string"
  ∧ m !! "hudi_column_names" = Some "id,name".
Proof.
  intros hudi m. unfold m.
  split_and!; (rewrite params_reserved; [reflexivity | intros k; discriminate]).
Qed.

(** C9. The keys of the assembled map are the ten keys of the initializer
    list together with the prefixed key of every storage property, and
    nothing else; the map has ten entries more than the property map. *)
Theorem params_key_set {T} scan hudi (descs : list (SlotDescriptor T)) :
  dom (params scan hudi descs)
  = list_to_set reserved_keys
    ∪ set_map (String.app HADOOP_FS_PREFIX) (dom (properties scan))
  ∧ size (params scan hudi descs) = 10 + size (properties scan).
Proof.
  destruct (params_assembled scan hudi descs) as (_ & _ & Hdom & Hsz).
  rewrite Hdom, Hsz, init_dom, init_size. split; reflexivity.
Qed.

(** C5. Every storage property is found under its key with "hadoop_fs."
    in front; every key of the initializer list is found as it is, with the
    value the initializer gave it, and is not of the prefixed form; a
    storage property named like a reserved key therefore lands on another
    key than the reserved one; the keys of the map are pairwise distinct. *)
Theorem storage_properties_namespaced {T} scan hudi
    (descs : list (SlotDescriptor T)) :
  let m := params scan hudi descs in
  map_Forall (λ k v, m !! (HADOOP_FS_PREFIX +:+ k) = Some v) (properties scan)
  ∧ Forall (λ r,
      m !! r = (list_to_map (params_initializer hudi descs)
                  : gmap string string) !! r
      ∧ is_Some (m !! r)
      ∧ (∀ k, r ≠ HADOOP_FS_PREFIX +:+ k)
      ∧ m !! (HADOOP_FS_PREFIX +:+ r) = properties scan !! r) reserved_keys
  ∧ NoDup (map_to_list m).*1.
Proof.
  intros m. unfold m. split_and!.
  - intros k v Hk. by rewrite params_prefixed.
  - apply Forall_forall. intros r Hr.
    assert (Hnp : ∀ k, r ≠ HADOOP_FS_PREFIX +:+ k)
      by (intros k; by apply reserved_not_prefixed).
    split_and!; [by apply params_reserved| |done|apply params_prefixed].
    rewrite params_reserved by done. apply elem_of_dom.
    rewrite dom_list_to_map_L, initializer_keys. by apply elem_of_list_to_set.
  - apply NoDup_fst_map_to_list.
Qed.

Example storage_key_named_base_path :
  let m := params {| properties := {[ "base_path" := "s3://other" ]} |}
             {| instant_time := "t0"; serde := "s"; input_format := "f";
                base_path := "/t"; data_file_path := "/t/f.parquet";
                data_file_length := 42; delta_logs := [];
                column_names := ["id"]; column_types := ["int"] |}
             [ {| col_name := "id"; type := 0%nat |} ] in
  m !! "base_path" = Some "/t"
  ∧ m !! "hadoop_fs.base_path" = Some "s3://other"
  ∧ m !! "data_file_length" = Some "42"
  ∧ size m = 11%nat.
Proof. vm_compute. done. Qed.

(** ** Required fields *)

(** The value under "required_fields", for every construction. *)
Lemma required_fields_value {T} scan hudi (descs : list (SlotDescriptor T)) :
  params scan hudi descs !! "required_fields"
  = Some (join (map col_name descs) ",").
Proof.
  rewrite params_reserved by (intros k; discriminate).
  change (Some (join (required_fields descs) ",")
          = Some (join (map col_name descs) ",")).
  by rewrite required_fields_map.
Qed.

(** C6, as stated, fails: the constructor takes the requested names from
    the slot descriptors and never compares them with the column names of
    the scan range. *)
Lemma projection_not_always_subset :
  ¬ projection_serialized hudi_one_column
      [ {| col_name := "z"; type := 0%nat |} ]
      (params {| properties := ∅ |} hudi_one_column
         [ {| col_name := "z"; type := 0%nat |} ])
  ∧ params {| properties := ∅ |} hudi_one_column
      [ {| col_name := "z"; type := 0%nat |} ] !! "required_fields"
    = Some "z".
Proof.
  split; [|apply required_fields_value].
  intros [Hsub _]. specialize (Hsub "z").
  assert (H : "z" ∈ column_names hudi_one_column).
  { apply Hsub. vm_compute. apply list_elem_of_here. }
  vm_compute in H. apply list_elem_of_singleton in H. discriminate H.
Qed.

(** C6, amended. For every construction, the required fields are the
    column names of the slot descriptors, one per descriptor and in the
    descriptors' order, and the value under "required_fields" is their
    comma-join in that order; they are a subset of the scan range's column
    names exactly when every slot descriptor names one of those columns. *)
Theorem projection_in_slot_order {T} scan hudi
    (descs : list (SlotDescriptor T)) :
  required_fields descs = map col_name descs
  ∧ params scan hudi descs !! "required_fields"
    = Some (join (map col_name descs) ",")
  ∧ (required_fields descs ⊆ column_names hudi
     ↔ Forall (λ d, col_name d ∈ column_names hudi) descs)
  ∧ (projection_serialized hudi descs (params scan hudi descs)
     ↔ Forall (λ d, col_name d ∈ column_names hudi) descs).
Proof.
  assert (Hsub : required_fields descs ⊆ column_names hudi
                 ↔ Forall (λ d, col_name d ∈ column_names hudi) descs).
  { rewrite required_fields_map, Forall_forall. split.
    - intros Hsub d Hd. apply Hsub. apply list_elem_of_fmap. by exists d.
    - intros Hall name Hname.
      apply list_elem_of_fmap in Hname as (d & -> & Hd). by apply Hall. }
  split_and!.
  - apply required_fields_map.
  - apply required_fields_value.
  - exact Hsub.
  - unfold projection_serialized. rewrite Hsub. split.
    + by intros [Hall _].
    + intros Hall. split; [exact Hall|apply required_fields_value].
Qed.

(** Columns [a,b,c] with [c,a] requested: "c,a". *)
Lemma projection_in_slot_order_c_a :
  params {| properties := ∅ |} hudi_abc descs_c_a !! "required_fields"
  = Some "c,a"
  ∧ projection_serialized hudi_abc descs_c_a
      (params {| properties := ∅ |} hudi_abc descs_c_a).
Proof.
  destruct (projection_in_slot_order {| properties := ∅ |} hudi_abc descs_c_a)
    as (_ & Hvalue & _ & Hall).
  split; [exact Hvalue|].
  apply Hall. repeat constructor.
Defined.

(** ** Joined lists read back *)

Lemma split_cons_eq d c s :
  c ≠ d →
  split d (String c s)
  = match split d s with
    | [] => [String c EmptyString]
    | field :: fields => String c field :: fields
    end.
Proof. intros Hc. simpl. by destruct (decide (c = d)). Qed.

Lemma split_without_delim d s : occurs d s = false → split d s = [s].
Proof.
  induction s as [|c s IH]; simpl; [done|].
  destruct (decide (c = d)); [done|]. intros H. by rewrite IH.
Qed.

Lemma split_field_then_delim d s rest :
  occurs d s = false →
  split d (s +:+ String d rest) = s :: split d rest.
Proof.
  induction s as [|c s IH]; intros H.
  - change (split d (String d rest) = EmptyString :: split d rest).
    simpl. by destruct (decide (d = d)).
  - simpl in H. destruct (decide (c = d)) as [|Hc]; [done|].
    change (split d (String c (s +:+ String d rest))
            = String c s :: split d rest).
    rewrite split_cons_eq by done. by rewrite IH.
Qed.

(** [split] undoes [join] on a non-empty list whose elements are free of
    the delimiter. *)
Lemma split_join d (l : list string) :
  l ≠ [] →
  Forall (λ s, occurs d s = false) l →
  split d (join l (String d EmptyString)) = l.
Proof.
  induction l as [|x l IH]; [done|]. intros _ Hall.
  apply Forall_cons in Hall as [Hx Hl].
  destruct l as [|y l].
  - simpl. by apply split_without_delim.
  - set (delim := String d EmptyString).
    change (split d (x +:+ delim +:+ join (y :: l) delim) = x :: y :: l).
    change (delim +:+ join (y :: l) delim)
      with (String d (join (y :: l) delim)).
    subst delim.
    rewrite split_field_then_delim by done. by rewrite IH.
Qed.

(** C4, as stated, fails: [join] does not escape the delimiter, so one
    column whose type contains '#' gives a type string with two fields. *)
Lemma types_not_always_aligned :
  length (column_names hudi_hash_in_type)
  = length (column_types hudi_hash_in_type)
  ∧ ¬ types_aligned hudi_hash_in_type
        (params {| properties := ∅ |} hudi_hash_in_type
           (@nil (SlotDescriptor nat))).
Proof.
  split; [reflexivity|].
  intros (names & types & _ & Htypes & Hlen & _).
  vm_compute in Htypes. injection Htypes as <-.
  vm_compute in Hlen. discriminate Hlen.
Qed.

(** With no column at all both strings are empty, and an empty string
    splits into one empty field, not into none. *)
Example empty_lists_split_to_one_field :
  join [] "#" = EmptyString ∧ split "#" (join [] "#") = [EmptyString].
Proof. split; reflexivity. Qed.

(** C4, amended. With at least one column, as many types as names, no
    ',' in a column name and no '#' in a column type, the type string
    splits at '#' into exactly one field per column, and the fields of the
    name string and of the type string, taken pairwise, are the columns
    with their types. *)
Theorem types_aligned_without_delimiters {T} scan hudi
    (descs : list (SlotDescriptor T)) (n : nat) :
  0 < n →
  length (column_names hudi) = n →
  length (column_types hudi) = n →
  Forall (λ s, occurs "," s = false) (column_names hudi) →
  Forall (λ s, occurs "#" s = false) (column_types hudi) →
  types_aligned hudi (params scan hudi descs)
  ∧ length (split "#" (join (column_types hudi) "#")) = n.
Proof.
  intros Hn Hnames Htypes Hcomma Hhash.
  assert (Hsn : split "," (join (column_names hudi) ",") = column_names hudi).
  { apply split_join; [|done]. intros E. rewrite E in Hnames. simpl in *. lia. }
  assert (Hst : split "#" (join (column_types hudi) "#") = column_types hudi).
  { apply split_join; [|done]. intros E. rewrite E in Htypes. simpl in *. lia. }
  split; [|by rewrite Hst].
  exists (join (column_names hudi) ","), (join (column_types hudi) "#").
  split_and!.
  - rewrite params_reserved by (intros k; discriminate). reflexivity.
  - rewrite params_reserved by (intros k; discriminate). reflexivity.
  - rewrite Hst. congruence.
  - by rewrite Hsn, Hst.
Qed.

(** Three columns, the second of type "decimal(10,2)". *)
Lemma types_aligned_abc :
  types_aligned hudi_abc (params {| properties := ∅ |} hudi_abc descs_c_a)
  ∧ length (split "#" (join (column_types hudi_abc) "#")) = 3%nat.
Proof.
  apply (types_aligned_without_delimiters {| properties := ∅ |} hudi_abc
           descs_c_a 3).
  - lia.
  - reflexivity.
  - reflexivity.
  - repeat constructor.
  - repeat constructor.
Defined.

(** ** The adapter's methods *)

Section Methods.
Context {TypeDescriptor Block J : Type}.
Variable h : Handler Block J.
Implicit Types (this : HudiJniReader TypeDescriptor) (o : Out Block) (j : J).

(** [get_next_block] against an arbitrary bridge. *)
Lemma run_get_next_block this o j :
  run h (get_next_block this o) j
  = let '(s, o1, j1) := h _ (jni_get_nex_block o) j in
    if ok s then
      if eof o1 then
        let '(sc, j2) := h _ jni_close j1 in
        ((if ok sc then OK else sc, o1), j2,
         [invoked_get_nex_block o; invoked_close])
      else ((OK, o1), j1, [invoked_get_nex_block o])
    else ((s, o1), j1, [invoked_get_nex_block o]).
Proof.
  unfold_method.
  destruct (h _ (jni_get_nex_block o) j) as [[s o1] j1].
  cbn [bind run invoked]. destruct (ok s); [|reflexivity].
  destruct (eof o1); [|reflexivity]. cbn [bind run invoked].
  destruct (h _ jni_close j1) as [sc j2]. by destruct (ok sc).
Qed.

(** C1. When the bridge read succeeds and leaves [eof] set, the adapter
    calls [close] on the bridge next and before it returns; it returns
    what [close] returned when that is a failure, and OK otherwise. *)
Theorem get_next_block_closes_at_eof this o j s o1 j1 sc j2 :
  h _ (jni_get_nex_block o) j = (s, o1, j1) →
  ok s = true →
  eof o1 = true →
  h _ jni_close j1 = (sc, j2) →
  run h (get_next_block this o) j
  = ((if ok sc then OK else sc, o1), j2,
     [invoked_get_nex_block o; invoked_close]).
Proof.
  intros Hread Hs Heof Hclose.
  by rewrite run_get_next_block, Hread, Hs, Heof, Hclose.
Qed.

(** Conversely, OK with [eof] set reaches the caller only after [close]
    was called and succeeded. *)
Lemma eof_reported_only_after_close this o j o1 j2 calls :
  run h (get_next_block this o) j = ((OK, o1), j2, calls) →
  eof o1 = true →
  calls = [invoked_get_nex_block o; invoked_close]
  ∧ ∃ s j1 sc,
      h _ (jni_get_nex_block o) j = (s, o1, j1)
      ∧ h _ jni_close j1 = (sc, j2)
      ∧ ok sc = true.
Proof.
  rewrite run_get_next_block.
  destruct (h _ (jni_get_nex_block o) j) as [[s o'] j1].
  destruct (ok s) eqn:Hs.
  - destruct (eof o') eqn:Ho'.
    + destruct (h _ jni_close j1) as [sc j2'] eqn:Hclose.
      intros [= Hsc <- <- <-] _. split; [reflexivity|].
      exists s, j1, sc. split_and!; [reflexivity|exact Hclose|].
      destruct (ok sc) eqn:Hok; [reflexivity|]. subst sc. discriminate Hok.
    + intros [= <- _ _] Heof. congruence.
  - intros [= -> _ _ _]. discriminate Hs.
Qed.

(** [init_reader] against an arbitrary bridge. *)
Lemma run_init_reader this p j :
  run h (init_reader this p) j
  = let this' := set_colname_to_value_range p this in
    let '(s_init, j1) := h _ (jni_init p) j in
    let '(s_open, j2) := h _ (jni_open (_state this) (_profile this)) j1 in
    if ok s_init
    then ((s_open, this'), j2,
          [invoked_init p; invoked_open (_state this) (_profile this)])
    else ((s_init, this'), j1, [invoked_init p]).
Proof.
  unfold_method.
  destruct (h _ (jni_init p) j) as [s_init j1] eqn:Hinit.
  destruct (h _ (jni_open (_state this) (_profile this)) j1)
    as [s_open j2] eqn:Hopen.
  destruct (ok s_init); cbn [bind run invoked]; [|done].
  change (_state (set_colname_to_value_range p this)) with (_state this).
  change (_profile (set_colname_to_value_range p this)) with (_profile this).
  by rewrite Hopen.
Qed.

(** C2. [init_reader] stores the pointer, calls [init] with it and, only
    when [init] succeeded, [open]; a failing [init] is returned without
    [open] being called, otherwise the result of [open] is returned. *)
Theorem init_reader_first_failure this p j :
  let this' := set_colname_to_value_range p this in
  let '(s_init, j1) := h _ (jni_init p) j in
  let '(s_open, j2) := h _ (jni_open (_state this) (_profile this)) j1 in
  _colname_to_value_range this' = p
  ∧ run h (init_reader this p) j
    = if ok s_init
      then ((s_open, this'), j2,
            [invoked_init p; invoked_open (_state this) (_profile this)])
      else ((s_init, this'), j1, [invoked_init p]).
Proof.
  intros this'. rewrite run_init_reader. fold this'.
  destruct (h _ (jni_init p) j) as [s_init j1].
  by destruct (h _ (jni_open (_state this) (_profile this)) j1).
Qed.

(** C10. Whatever the bridge answers, and so also when [init] or [open]
    fails and the error is returned, the adapter that [init_reader]
    leaves behind holds the new pointer (its other members are as
    before). *)
Theorem init_reader_keeps_pointer_on_error this p j :
  let result := run h (init_reader this p) j in
  result.1.1.2 = set_colname_to_value_range p this
  ∧ _colname_to_value_range result.1.1.2 = p.
Proof.
  intros result. unfold result. rewrite run_init_reader. cbv zeta.
  destruct (h _ (jni_init p) j) as [s_init j1].
  destruct (h _ (jni_open (_state this) (_profile this)) j1) as [s_open j2].
  by destruct (ok s_init).
Qed.

(** [emplace] over the slot descriptors: entries already in the map stay,
    and of two descriptors with one name the first gives the type. *)
Lemma emplace_union {V} k (v : V) (m : gmap string V) :
  emplace k v m = m ∪ {[ k := v ]}.
Proof.
  unfold emplace. apply map_eq. intros i.
  destruct (m !! k) as [w|] eqn:Hk.
  - rewrite lookup_union. destruct (decide (k = i)) as [<-|Hne].
    + by rewrite Hk, lookup_singleton_eq.
    + rewrite lookup_singleton_ne by done. by destruct (m !! i).
  - rewrite insert_union_singleton_r by done. done.
Qed.

Lemma foldl_emplace (descs : list (SlotDescriptor TypeDescriptor))
    (name_to_type : gmap string TypeDescriptor) :
  foldl (λ acc desc, emplace (col_name desc) (type desc) acc)
    name_to_type descs
  = name_to_type ∪ list_to_map ((λ d, (col_name d, type d)) <$> descs).
Proof.
  revert name_to_type.
  induction descs as [|d descs IH]; intros m; cbn [foldl fmap list_fmap].
  - cbn. by rewrite (right_id_L ∅ (∪)).
  - rewrite IH, emplace_union. cbn [list_to_map foldr].
    rewrite <- (assoc_L (∪)). by rewrite <- insert_union_singleton_l.
Qed.

(** C7. [get_columns] returns OK; the map it leaves is the incoming map
    extended from the slot descriptors alone; the missing-column set is
    the incoming one, so an empty set stays empty; and no call reaches the
    bridge, whose state is untouched. *)
Theorem get_columns_is_local this name_to_type missing_cols j :
  let from_descs : gmap string TypeDescriptor :=
    list_to_map ((λ d, (col_name d, type d)) <$> _file_slot_descs this) in
  run h (get_columns this name_to_type missing_cols) j
  = ((OK, name_to_type ∪ from_descs, missing_cols), j, [])
  ∧ run h (get_columns this ∅ ∅) j = ((OK, from_descs, ∅), j, []).
Proof.
  intros from_descs. unfold_method. rewrite !foldl_emplace.
  by rewrite (left_id_L ∅ (∪)).
Qed.
End Methods.

(** ** After end-of-stream *)

Section AfterEndOfStream.
Context {TypeDescriptor Block R : Type}.
Variable rd : Remote Block R.
Implicit Types (this : HudiJniReader TypeDescriptor) (o : Out Block)
  (b : BridgeHandle R).

Lemma drained_may_read b : drained b → may_read b = false.
Proof.
  unfold drained, may_read. intros [H|H]; rewrite H; [|done].
  by destruct (lifecycle b).
Qed.

Lemma drained_nextBlock o b :
  drained b → bridge_nextBlock rd o b = (invalid_state, o, b).
Proof.
  intros H. unfold bridge_nextBlock. by rewrite drained_may_read.
Qed.

(** A drained handle stays drained under every call. *)
Lemma drained_bridge {X} (c : JniCall Block X) b :
  drained b → drained (bridge rd X c b).2.
Proof.
  intros Hd. pose proof (drained_may_read b Hd) as Hread.
  destruct Hd as [H|H].
  - left. destruct c as [p|st pr|o|]; cbn [bridge].
    + unfold bridge_init. destruct (lifecycle b); try exact H.
      destruct (remote_init rd p (reader b)); exact H.
    + unfold bridge_open. destruct (lifecycle b); try exact H.
      destruct (remote_open rd st pr (reader b)); exact H.
    + unfold bridge_nextBlock. rewrite Hread. exact H.
    + unfold bridge_close. destruct (lifecycle b); try exact H;
        destruct (remote_close rd (reader b)); exact H.
  - right. destruct c as [p|st pr|o|]; cbn [bridge].
    + unfold bridge_init. rewrite H. exact H.
    + unfold bridge_open. rewrite H. exact H.
    + unfold bridge_nextBlock. rewrite Hread. exact H.
    + unfold bridge_close. rewrite H. exact H.
Qed.

Lemma drained_run {A} (m : Jni Block A) b :
  drained b → drained (run (bridge rd) m b).1.2.
Proof.
  revert b. induction m as [a|X c k IH]; intros b Hb; cbn [run]; [done|].
  pose proof (drained_bridge c b Hb) as Hc.
  destruct (bridge rd X c b) as [x b1]. cbn [snd] in Hc.
  specialize (IH x b1 Hc).
  by destruct (run (bridge rd) (k x) b1) as [[a b2] calls].
Qed.

Lemma drained_after this b (c : AdapterCall TypeDescriptor Block) :
  drained b → drained (after (bridge rd) (this, b) c).2.
Proof.
  intros Hb. destruct c as [p|o|n m]; cbn [after].
  - pose proof (drained_run (init_reader this p) b Hb) as H.
    by destruct (run (bridge rd) (init_reader this p) b) as [[[s t] b1] cs].
  - pose proof (drained_run (get_next_block this o) b Hb) as H.
    by destruct (run (bridge rd) (get_next_block this o) b) as [[s b1] cs].
  - pose proof (drained_run (get_columns this n m) b Hb) as H.
    by destruct (run (bridge rd) (get_columns this n m) b) as [[s b1] cs].
Qed.

Lemma drained_after_all (cs : list (AdapterCall TypeDescriptor Block))
    this b :
  drained b → drained (after_all (bridge rd) (this, b) cs).2.
Proof.
  unfold after_all. revert this b.
  induction cs as [|c cs IH]; intros this b Hb; cbn [foldl]; [done|].
  pose proof (drained_after this b c Hb) as H.
  destruct (after (bridge rd) (this, b) c) as [this1 b1]. by apply IH.
Qed.

(** A call that reports end-of-stream leaves the handle drained. *)
Lemma reported_eof_drained this o b o1 b1 calls :
  run (bridge rd) (get_next_block this o) b = ((OK, o1), b1, calls) →
  eof o1 = true →
  drained b1.
Proof.
  rewrite run_get_next_block. cbn [bridge]. unfold bridge_nextBlock.
  destruct (may_read b).
  - destruct (remote_nextBlock rd o (reader b)) as [[s o'] r].
    destruct (ok s) eqn:Hs.
    + destruct (eof o') eqn:Ho'.
      * set (b' := {| lifecycle := draining; eos_returned := true;
                      reader := r |}).
        pose proof (drained_bridge jni_close b' (or_introl eq_refl)) as Hc.
        cbn [bridge] in Hc. destruct (bridge_close rd b') as [sc b2].
        intros [= _ _ <-] _. exact Hc.
      * intros [= <- _] Heof. congruence.
    + intros [= -> _ _] _. discriminate Hs.
  - intros [= ].
Qed.

(** C8. Once a [get_next_block] call has returned OK with [eof] set,
    then after whatever further calls on the adapter, every
    [get_next_block] call is refused by the bridge handle: the adapter
    returns the invalid-state error and the caller's block, row count
    and [eof] are left as they were. *)
Theorem get_next_block_after_eof this o b o1 b1 calls
    (later : list (AdapterCall TypeDescriptor Block)) this2 b2 o2 :
  run (bridge rd) (get_next_block this o) b = ((OK, o1), b1, calls) →
  eof o1 = true →
  after_all (bridge rd) (this, b1) later = (this2, b2) →
  run (bridge rd) (get_next_block this2 o2) b2
  = ((invalid_state, o2), b2, [invoked_get_nex_block o2]).
Proof.
  intros Hrun Heof Hlater.
  pose proof (reported_eof_drained _ _ _ _ _ _ Hrun Heof) as Hb1.
  pose proof (drained_after_all later this b1 Hb1) as Hb2.
  rewrite Hlater in Hb2. cbn [snd] in Hb2.
  rewrite run_get_next_block. cbn [bridge].
  by rewrite drained_nextBlock.
Qed.
End AfterEndOfStream.

(** ** The methods on concrete bridges *)

(** C1 on a bridge whose [close] fails after the last read: the caller
    gets the cleanup error, not OK. *)
Lemma get_next_block_close_failure_returned :
  run (bridge failing_close_remote) (get_next_block reader_abc out0)
    opened_empty
  = ((Error CleanupError "close failed",
      {| block := 0%nat; read_rows := 0; eof := true |}),
     {| lifecycle := draining; eos_returned := true; reader := [] |},
     [invoked_get_nex_block out0; invoked_close]).
Proof.
  apply (get_next_block_closes_at_eof (bridge failing_close_remote)
           reader_abc out0 opened_empty OK
           {| block := 0%nat; read_rows := 0; eof := true |}
           {| lifecycle := draining; eos_returned := true; reader := [] |}
           (Error CleanupError "close failed")
           {| lifecycle := draining; eos_returned := true; reader := [] |}).
  - reflexivity.
  - reflexivity.
  - reflexivity.
  - reflexivity.
Defined.

(** C8 on the list reader: end-of-stream on the first read, then
    [init_reader], [get_next_block] and [get_columns], then the read that
    is refused. *)
Lemma get_next_block_after_eof_refused :
  run (bridge list_remote)
    (get_next_block (set_colname_to_value_range 7 reader_abc)
       {| block := 5%nat; read_rows := 9; eof := false |})
    {| lifecycle := closed; eos_returned := true; reader := [] |}
  = ((invalid_state, {| block := 5%nat; read_rows := 9; eof := false |}),
     {| lifecycle := closed; eos_returned := true; reader := [] |},
     [invoked_get_nex_block
        {| block := 5%nat; read_rows := 9; eof := false |}]).
Proof.
  apply (get_next_block_after_eof list_remote reader_abc out0 opened_empty
           {| block := 0%nat; read_rows := 0; eof := true |}
           {| lifecycle := closed; eos_returned := true; reader := [] |}
           [invoked_get_nex_block out0; invoked_close]
           [call_init_reader 7; call_get_next_block out0;
            call_get_columns ∅ ∅]).
  - reflexivity.
  - reflexivity.
  - reflexivity.
Defined.

(** Three batches, then end-of-stream on the fourth call, which closes the
    handle. *)
Example three_batches_then_eof :
  let b0 := {| lifecycle := opened; eos_returned := false;
               reader := [10; 20; 30]%nat |} in
  let next := run (bridge list_remote) (get_next_block reader_abc out0) in
  let '(r1, b1, _) := next b0 in
  let '(r2, b2, _) := next b1 in
  let '(r3, b3, _) := next b2 in
  let '(r4, b4, calls) := next b3 in
  [r1; r2; r3; r4]
  = [ (OK, {| block := 10%nat; read_rows := 1; eof := false |});
      (OK, {| block := 20%nat; read_rows := 1; eof := false |});
      (OK, {| block := 30%nat; read_rows := 1; eof := false |});
      (OK, {| block := 0%nat; read_rows := 0; eof := true |}) ]
  ∧ lifecycle b4 = closed
  ∧ calls = [invoked_get_nex_block out0; invoked_close].
Proof. vm_compute. done. Qed.

(** [init_reader] on a handle that is already closed: [init] is refused,
    [open] is not called, and the adapter holds the new pointer all the
    same. *)
Example init_reader_on_closed_handle :
  run (bridge list_remote) (init_reader reader_abc 7)
    {| lifecycle := closed; eos_returned := true; reader := [] |}
  = ((invalid_state, set_colname_to_value_range 7 reader_abc),
     {| lifecycle := closed; eos_returned := true; reader := [] |},
     [invoked_init 7])
  ∧ _colname_to_value_range reader_abc = 0%N
  ∧ _colname_to_value_range (set_colname_to_value_range 7 reader_abc) = 7%N.
Proof. vm_compute. done. Qed.

(** [get_columns] keeps an entry that is already in the caller's map, and
    of two descriptors with one name the first gives the type. *)
Example get_columns_keeps_entries :
  (foldl (λ acc desc, emplace (col_name desc) (type desc) acc)
     ({[ "a" := 9%nat ]} : gmap string nat)
     [ {| col_name := "c"; type := 2%nat |};
       {| col_name := "a"; type := 0%nat |};
       {| col_name := "c"; type := 5%nat |} ])
  = {[ "a" := 9%nat; "c" := 2%nat ]}.
Proof. vm_compute. done. Qed.

(** * Further properties *)

(** ** The methods against an arbitrary bridge *)

Section MoreMethods.
Context {TypeDescriptor Block J : Type}.
Variable h : Handler Block J.
Implicit Types (this : HudiJniReader TypeDescriptor) (o : Out Block) (j : J).

(** X1. [get_next_block] reads once and calls [close] exactly when the read
    succeeded and left [eof] set; the out-parameters at return are what the
    read wrote, also when an error is returned; a failed read is returned
    as it is, with the bridge left as the read left it and not closed. *)
Theorem get_next_block_closes_only_at_eof this o j :
  let '(s, o1, j1) := h _ (jni_get_nex_block o) j in
  let r := run h (get_next_block this o) j in
  r.2 = invoked_get_nex_block o
        :: (if ok s && eof o1 then [invoked_close] else [])
  ∧ r.1.1.2 = o1
  ∧ (if ok s then True else r.1.1.1 = s ∧ r.1.2 = j1)
  ∧ (if ok s && negb (eof o1) then r.1.1.1 = OK ∧ r.1.2 = j1 else True).
Proof.
  rewrite run_get_next_block.
  destruct (h _ (jni_get_nex_block o) j) as [[s o1] j1].
  destruct (ok s); cbn [andb negb]; [|by split_and!].
  destruct (eof o1); cbn [negb]; [|by split_and!].
  destruct (h _ jni_close j1) as [sc j2]. by split_and!.
Qed.

(** X2. The names in the map after [get_columns] are the names that were
    in it before together with the column names of all slot descriptors. *)
Theorem get_columns_names this
    (name_to_type : gmap string TypeDescriptor) missing_cols j :
  dom (run h (get_columns this name_to_type missing_cols) j).1.1.1.2
  = dom name_to_type ∪ list_to_set (col_name <$> _file_slot_descs this).
Proof.
  unfold_method. cbn [fst snd]. rewrite foldl_emplace.
  rewrite dom_union_L, dom_list_to_map_L. f_equal. f_equal.
  rewrite <- list_fmap_compose. reflexivity.
Qed.

(** X3. For a name that is not yet in the map, [get_columns] records the
    type of the first slot descriptor with that name; later descriptors
    with the same name do not change it. *)
Theorem get_columns_first_descriptor_wins this
    (name_to_type : gmap string TypeDescriptor) missing_cols j
    (before rest : list (SlotDescriptor TypeDescriptor)) d :
  _file_slot_descs this = (before ++ d :: rest)%list →
  col_name d ∉ col_name <$> before →
  name_to_type !! col_name d = None →
  (run h (get_columns this name_to_type missing_cols) j).1.1.1.2
    !! col_name d = Some (type d).
Proof.
  intros Hdescs Hfirst Hnew. unfold_method. cbn [fst snd].
  rewrite foldl_emplace, Hdescs, lookup_union_r by exact Hnew.
  rewrite fmap_app, list_to_map_app, lookup_union_r.
  - cbn [fmap list_fmap list_to_map foldr]. apply lookup_insert_eq.
  - apply not_elem_of_list_to_map_1. rewrite <- list_fmap_compose.
    exact Hfirst.
Qed.

(** X4. Calling [get_columns] again on the map it produced changes
    nothing. *)
Theorem get_columns_twice this
    (name_to_type : gmap string TypeDescriptor) missing_cols j :
  let once := (run h (get_columns this name_to_type missing_cols) j).1.1.1.2 in
  (run h (get_columns this once missing_cols) j).1.1.1.2 = once.
Proof.
  unfold_method. cbn [fst snd]. rewrite !foldl_emplace.
  rewrite <- (assoc_L (∪)). by rewrite (idemp_L (∪)).
Qed.
End MoreMethods.

(** ** The storage properties in the assembled map *)

(** X6. Constructions whose storage properties differ have different
    assembled maps, whatever their other arguments: prefixing neither
    drops a property nor merges two. *)
Theorem params_differ_with_properties {T1 T2} scan1 scan2 hudi1 hudi2
    (descs1 : list (SlotDescriptor T1)) (descs2 : list (SlotDescriptor T2)) :
  properties scan1 ≠ properties scan2 →
  params scan1 hudi1 descs1 ≠ params scan2 hudi2 descs2.
Proof.
  intros Hne E. apply Hne. apply map_eq. intros k.
  rewrite <- (params_prefixed scan1 hudi1 descs1 k).
  rewrite <- (params_prefixed scan2 hudi2 descs2 k). by rewrite E.
Qed.

(** ** The constructor's calls on the other runtime *)

Lemma c_str_without_nul s : occurs Ascii.zero s = false → c_str s = s.
Proof.
  induction s as [|c s IH]; cbn [occurs c_str]; [done|].
  destruct (decide (c = Ascii.zero)); [done|]. intros H. by rewrite IH.
Qed.

Lemma c_str_free_of_nul s : occurs Ascii.zero (c_str s) = false.
Proof.
  induction s as [|c s IH]; cbn [c_str]; [done|].
  destruct (decide (c = Ascii.zero)) as [|Hc]; [done|].
  cbn [occurs]. by destruct (decide (c = Ascii.zero)).
Qed.

#[global] Instance key_le_total : Total key_le.
Proof. intros x y. apply (total String.le). Qed.

Lemma entries_in_key_order_perm (m : gmap string string) :
  entries_in_key_order m ≡ₚ map_to_list m.
Proof. apply merge_sort_Permutation. Qed.

Lemma entries_in_key_order_sorted (m : gmap string string) :
  Sorted key_le (entries_in_key_order m).
Proof. apply (Sorted_merge_sort key_le). Qed.

Lemma entries_in_key_order_length (m : gmap string string) :
  length (entries_in_key_order m) = size m.
Proof.
  rewrite (Permutation_length (entries_in_key_order_perm m)).
  apply length_map_to_list.
Qed.

Lemma entries_in_key_order_NoDup (m : gmap string string) :
  NoDup (entries_in_key_order m).*1.
Proof.
  rewrite (entries_in_key_order_perm m). apply NoDup_fst_map_to_list.
Qed.

Section Construction.
Context {V : Type}.
Variable h : EnvHandler V.

Lemma run_env_bind {A B} (m : JNIEnv A) (f : A → JNIEnv B) v :
  run_env h (env_bind m f) v
  = let '(a, v1, events1) := run_env h m v in
    let '(b, v2, events2) := run_env h (f a) v1 in
    (b, v2, events1 ++ events2)%list.
Proof.
  revert v. induction m as [a|X c k IH]; intros v; cbn [env_bind run_env].
  - by destruct (run_env h (f a) v) as [[b v2] events2].
  - destruct (h X c v) as [x v1]. rewrite IH.
    destruct (run_env h (k x) v1) as [[a v2] events1].
    by destruct (run_env h (f a) v2) as [[b v3] events2].
Qed.

(** The loop of lines 89-96 over any list of entries. *)
Lemma run_put_entries hashmap_object hashmap_put
    (l : list (string * string)) v :
  let events :=
    (run_env h (for_each (put_entry hashmap_object hashmap_put) l) v).2 in
  let strings := omap string_created events in
  strings.*1 = flat_map (λ it, [c_str it.1; c_str it.2]) l
  ∧ omap ref_deleted events = strings.*2
  ∧ (omap method_called events).*1
    = (λ kv, (hashmap_object, hashmap_put, [jv_ref kv.1; jv_ref kv.2]))
        <$> pairs strings.*2
  ∧ omap class_found events = []
  ∧ omap object_created events = [].
Proof.
  revert v. induction l as [|[k x] l IH]; intros v; [done|].
  change (for_each (put_entry hashmap_object hashmap_put) ((k, x) :: l))
    with (env_bind (put_entry hashmap_object hashmap_put (k, x))
            (λ _, for_each (put_entry hashmap_object hashmap_put) l)).
  rewrite run_env_bind. unfold put_entry at 1. unfold_env. cbn [fst snd].
  do 5 step_env.
  match goal with
  | |- context [run_env h (for_each ?body l) ?v'] =>
      specialize (IH v'); cbv zeta in IH;
      destruct (run_env h (for_each body l) v') as [[[] v''] events]
  end.
  cbn in IH. destruct IH as (IH1 & IH2 & IH3 & IH4 & IH5).
  cbn. rewrite IH1, IH2, IH3, IH4, IH5. done.
Qed.

(** Lines 71-100 against an arbitrary runtime: which classes were looked
    up, which objects created, which strings created, which references
    deleted and which methods called, each in order. *)
Lemma construct_scanner_events (params : gmap string string) v :
  let '(cls, conn, _, events) := run_env h (construct_scanner params) v in
  let strings := omap string_created events in
  ∃ loader_cls loader_obj get_loader hashmap_cls hashmap_obj hashmap_put,
    omap class_found events
    = [ ("org/apache/doris/hudi/HudiScannerLoader", loader_cls);
        ("java/util/HashMap", hashmap_cls) ]
    ∧ omap object_created events
      = [ (loader_cls, [], loader_obj);
          (hashmap_cls, [jv_size (N.of_nat (size params))], hashmap_obj);
          (cls, [jv_ref hashmap_obj], conn) ]
    ∧ strings.*1
      = flat_map (λ it, [c_str it.1; c_str it.2])
          (entries_in_key_order params)
    ∧ omap ref_deleted events
      = ([loader_cls; loader_obj] ++ strings.*2
         ++ [hashmap_cls; hashmap_obj])%list
    ∧ (omap method_called events).*1
      = (loader_obj, get_loader, [])
        :: ((λ kv, (hashmap_obj, hashmap_put, [jv_ref kv.1; jv_ref kv.2]))
              <$> pairs strings.*2)
    ∧ snd <$> head (omap method_called events) = Some cls.
Proof.
  unfold construct_scanner. unfold_env. do 12 step_env.
  rewrite run_env_bind.
  match goal with
  | |- context [run_env h (for_each (put_entry ?o ?p) ?l) ?v'] =>
      pose proof (run_put_entries o p l v') as Hloop; cbv zeta in Hloop;
      destruct (run_env h (for_each (put_entry o p) l) v')
        as [[[] v''] loop]
  end.
  cbn [snd] in Hloop. destruct Hloop as (H1 & H2 & H3 & H4 & H5).
  cbn [env_bind run_env]. do 3 step_env.
  cbv zeta. eexists _, _, _, _, _, _.
  cbn. rewrite !omap_app, !fmap_app, H4, H5, H2, H3, H1. cbn.
  split_and!; try reflexivity; by rewrite ?app_nil_r.
Qed.



Lemma length_key_value_strings (l : list (string * string)) :
  length (flat_map (λ it, [c_str it.1; c_str it.2]) l) = 2 * length l.
Proof. induction l as [|it l IH]; cbn [flat_map length app]; lia. Qed.


Lemma pairs_key_value_strings (l : list (string * string)) :
  Forall (λ it, c_str it.1 = it.1 ∧ c_str it.2 = it.2) l →
  pairs (flat_map (λ it, [c_str it.1; c_str it.2]) l) = l.
Proof.
  induction 1 as [|[k x] l [Hk Hx] _ IH]; [done|].
  cbn [flat_map app pairs fst snd] in *. by rewrite Hk, Hx, IH.
Qed.

Lemma size_params {T} scan hudi (descs : list (SlotDescriptor T)) :
  size (params scan hudi descs) = 10 + size (properties scan).
Proof.
  destruct (params_assembled scan hudi descs) as (_ & _ & _ & Hsz).
  by rewrite Hsz, init_size.
Qed.

(** X7. The constructor creates one string for the key and one for the
    value of every entry of the assembled map, key before value, going
    through the entries in ascending key order; each string is cut at its
    first NUL; that makes two strings for each of the ten reserved entries
    and each storage property. *)
Theorem constructor_hands_over_entries_in_key_order {T} scan hudi
    (descs : list (SlotDescriptor T)) v :
  let events := (run_env h (new_HudiJniReader scan hudi descs) v).2 in
  let entries := entries_in_key_order (params scan hudi descs) in
  (omap string_created events).*1
  = flat_map (λ it, [c_str it.1; c_str it.2]) entries
  ∧ entries ≡ₚ map_to_list (params scan hudi descs)
  ∧ Sorted key_le entries
  ∧ length (omap string_created events) = 2 * (10 + size (properties scan)).
Proof.
  intros events entries. unfold events, entries, new_HudiJniReader.
  pose proof (construct_scanner_events (params scan hudi descs) v) as H.
  destruct (run_env h (construct_scanner (params scan hudi descs)) v)
    as [[[cls conn] v'] evs].
  destruct H as (? & ? & ? & ? & ? & ? & _ & _ & Hstr & _).
  cbn [snd]. split_and!.
  - exact Hstr.
  - apply entries_in_key_order_perm.
  - apply entries_in_key_order_sorted.
  - rewrite <- (length_fmap fst), Hstr, length_key_value_strings.
    by rewrite entries_in_key_order_length, size_params.
Qed.

(** X8. The references the constructor deletes are, in this order: the
    loader class, the loader object, every key and value string in the
    order of creation, the HashMap class and the HashMap object.  No
    delete is issued for the class the loader returned or for the scanner
    object, which the constructor keeps, nor for what [put] returned. *)
Theorem constructor_deletes_what_it_created {T} scan hudi
    (descs : list (SlotDescriptor T)) v :
  let '(cls, conn, _, events) :=
    run_env h (new_HudiJniReader scan hudi descs) v in
  ∃ loader_cls loader_obj hashmap_cls hashmap_obj,
    (omap class_found events).*2 = [loader_cls; hashmap_cls]
    ∧ (omap object_created events).*2 = [loader_obj; hashmap_obj; conn]
    ∧ snd <$> head (omap method_called events) = Some cls
    ∧ omap ref_deleted events
      = ([loader_cls; loader_obj] ++ (omap string_created events).*2
         ++ [hashmap_cls; hashmap_obj])%list.
Proof.
  unfold new_HudiJniReader.
  pose proof (construct_scanner_events (params scan hudi descs) v) as H.
  destruct (run_env h (construct_scanner (params scan hudi descs)) v)
    as [[[cls conn] v'] evs].
  destruct H as (lc & lo & gl & hc & ho & hp & Hc & Ho & _ & Hd & _ & Hh).
  exists lc, lo, hc, ho. by rewrite Hc, Ho, Hd, Hh.
Qed.


(** X10. When no key and no value of the assembled map contains a NUL
    character, the strings created, taken two by two, are exactly the
    entries of the map in ascending key order, and no key is handed over
    twice. *)
Theorem constructor_strings_exact_without_nul {T} scan hudi
    (descs : list (SlotDescriptor T)) v :
  map_Forall (λ k x, occurs Ascii.zero k = false ∧ occurs Ascii.zero x = false)
    (params scan hudi descs) →
  let events := (run_env h (new_HudiJniReader scan hudi descs) v).2 in
  pairs (omap string_created events).*1
  = entries_in_key_order (params scan hudi descs)
  ∧ NoDup (pairs (omap string_created events).*1).*1.
Proof.
  intros Hnul events. unfold events, new_HudiJniReader.
  pose proof (construct_scanner_events (params scan hudi descs) v) as H.
  destruct (run_env h (construct_scanner (params scan hudi descs)) v)
    as [[[cls conn] v'] evs].
  destruct H as (? & ? & ? & ? & ? & ? & _ & _ & Hstr & _).
  cbn [snd].
  assert (Hpairs : pairs (omap string_created evs).*1
                   = entries_in_key_order (params scan hudi descs)).
  { rewrite Hstr. apply pairs_key_value_strings.
    apply Forall_forall. intros [key val] Hin.
    rewrite (entries_in_key_order_perm _) in Hin.
    apply elem_of_map_to_list in Hin.
    destruct (Hnul key val Hin) as [Hk Hx].
    split; by apply c_str_without_nul. }
  rewrite Hpairs. split; [reflexivity|apply entries_in_key_order_NoDup].
Qed.
End Construction.

(** ** The further properties on concrete inputs *)

(** X3 on [a], [c], [c]: the first [c] gives the type. *)
Lemma get_columns_first_descriptor_wins_c :
  (run (bridge list_remote) (get_columns reader_a_c_c ∅ ∅) opened_empty)
    .1.1.1.2 !! "c" = Some 2%nat.
Proof.
  apply (get_columns_first_descriptor_wins (bridge list_remote) reader_a_c_c
           ∅ ∅ opened_empty
           [ {| col_name := "a"; type := 0%nat |} ]
           [ {| col_name := "c"; type := 5%nat |} ]
           {| col_name := "c"; type := 2%nat |}).
  - reflexivity.
  - cbn. intros H. apply list_elem_of_singleton in H. discriminate H.
  - reflexivity.
Defined.

(** X6 on one storage property against none. *)
Lemma params_differ_with_properties_s3 :
  params scan_s3 hudi_abc descs_c_a
  ≠ params {| properties := ∅ |} hudi_one_column descs_a_c_c.
Proof.
  apply (params_differ_with_properties scan_s3 {| properties := ∅ |}
           hudi_abc hudi_one_column descs_c_a descs_a_c_c).
  cbn. intros E.
  apply (f_equal (λ m : gmap string string, m !! "fs.s3a.endpoint")) in E.
  vm_compute in E. discriminate E.
Defined.

(** X10 on [hudi_abc] with one storage property. *)
Lemma constructor_strings_exact_s3 :
  let events :=
    (run_env counting_env (new_HudiJniReader scan_s3 hudi_abc descs_c_a) 0%N).2
  in
  pairs (omap string_created events).*1
  = entries_in_key_order (params scan_s3 hudi_abc descs_c_a)
  ∧ NoDup (pairs (omap string_created events).*1).*1.
Proof.
  apply (constructor_strings_exact_without_nul counting_env scan_s3 hudi_abc
           descs_c_a 0%N).
  compute_done.
Defined.

(** The constructor on [hudi_abc] with one storage property, against a
    runtime that numbers its handles: eleven entries in key order, the
    prefixed one between "delta_file_paths" and "hudi_column_names". *)
Example constructor_on_abc :
  let '(cls, conn, _, events) :=
    run_env counting_env (new_HudiJniReader scan_s3 hudi_abc descs_c_a) 0%N in
  (pairs (omap string_created events).*1).*1
  = [ "base_path"; "data_file_length"; "data_file_path"; "delta_file_paths";
      "hadoop_fs.fs.s3a.endpoint"; "hudi_column_names"; "hudi_column_types";
      "input_format"; "instant_time"; "required_fields"; "serde" ]
  ∧ omap object_created events
    = [ (1, [], 3); (7, [jv_size 11], 9); (5, [jv_ref 9], 44) ]%N
  ∧ (cls, conn) = (5, 44)%N.
Proof. vm_compute. done. Qed.
